(** * The JSON value builder of [src/example/pegtl/json_build_two.cpp]

    The example program parses a JSON text with the PEGTL grammar
    [pegtl::json::text] and, through one action per grammar rule, assembles
    the document as a tree of [json_base] objects.  This file embeds the
    build state, the actions and the run driver [main], and proves the
    properties of the assembly algorithm. *)

From Stdlib Require Import SpecFloat.
From stdpp Require Import base option list strings gmap fin_maps.

Set Default Proof Using "Type".

(** ** The number type *)

(** The value of a JSON number is a C++ [long double] read from the matched
    text with [operator>>] of a [std::stringstream].  The floating type and
    the conversion belong to the C++ library; they are taken as an interface.
    The extraction is total: it reports no error to the action (a failed or
    out-of-range extraction only sets the stream's fail bit, which the action
    never reads). *)
Class LongDouble : Type := {
  long_double : Type;
  stream_extract : string → long_double
}.

(** ** Value model ([json_classes.hpp]) *)

Section Values.
Context `{LongDouble}.

(** Modelled from the spec: the classes of [json_classes.hpp], which is
    not among the sources.  One constructor per class derived from
    [json_base]; the payload of a container is its member [data], the
    only member the actions touch.  A [std::shared_ptr< json_base >] is
    an [option]: [None] is the empty pointer, which is what a moved-from
    pointer holds.  Every pointer of the program is created by
    [std::make_shared] and afterwards only moved, so no object is ever
    reachable through two pointers and an object is identified with its
    contents. *)
#[warnings="-register-all"]
Inductive json_base : Type :=
| null_json
| boolean_json (data : bool)
| number_json (data : long_double)
| string_json (data : string)
| array_json (data : list (option json_base))
| object_json (data : gmap string (option json_base)).

End Values.

Abbreviation json_ptr := (option json_base).
Abbreviation array_data := (list (option json_base)).
Abbreviation object_data := (gmap string (option json_base)).

(** ** Outcomes of running a piece of the program *)

(** Modelled from the spec: [pegtl::parse_error], the exception of the
    engine: the position in the input and the message of the rule that was
    required there. *)
Record parse_error : Type := mk_parse_error {
  position : nat;
  message : string
}.

(** A piece of the program returns, leaves by an exception, stops in a
    failed [assert], or has no defined behaviour at all. *)
Inductive exec (A : Type) : Type :=
| Ret (a : A)
| Throw (e : parse_error)
| Abort (expr : string)
| Undefined.

Arguments Ret {A} a.
Arguments Throw {A} e.
Arguments Abort {A} expr.
Arguments Undefined {A}.

Definition exec_bind {A B : Type} (m : exec A) (k : A → exec B) : exec B :=
  match m with
  | Ret a => k a
  | Throw e => Throw e
  | Abort expr => Abort expr
  | Undefined => Undefined
  end.

Notation "x ←ₑ m ; k" := (exec_bind m (λ x, k))
  (at level 20, m at level 100, k at level 200, right associativity,
   format "x  ←ₑ  m ;  '/' k").

(** A failure that the program itself detects and reports. *)
Definition detected {A : Type} (m : exec A) : bool :=
  match m with
  | Throw _ | Abort _ => true
  | Ret _ | Undefined => false
  end.

(** The piece of the program ran to its end. *)
Definition returns {A : Type} (m : exec A) : bool :=
  match m with
  | Ret _ => true
  | _ => false
  end.

(** ** [std::vector] as used by the build state *)

Section Vector.
Context {A : Type}.

(** [v.back()]: the last element; there is none in an empty vector, where
    the call has undefined behaviour. *)
Definition back (v : list A) : option A := last v.

(** [v.push_back( x )] *)
Definition push_back (x : A) (v : list A) : list A := v ++ [x].

(** [v.pop_back()] *)
Definition pop_back (v : list A) : list A := removelast v.

(** Assignment through the reference returned by [v.back()]. *)
Definition set_back (x : A) (v : list A) : list A :=
  <[pred (length v) := x]> v.

(** [v.empty()] *)
Definition is_empty (v : list A) : bool :=
  match v with
  | [] => true
  | _ :: _ => false
  end.

End Vector.

(** ** Build state and actions *)

Section Builder.
Context `{LongDouble}.

(** [struct json_state].  The vectors [arrays] and [objects] hold pointers
    to the containers under construction.  A pointer is pushed only by a
    begin action, which gets it from [std::make_shared], and is moved out
    only by the end action that pops it, so no element of these vectors is
    ever an empty pointer: the vectors are modelled as holding the [data]
    of the containers. *)
Record json_state : Type := mk_json_state {
  result : json_ptr;
  keys : list string;
  arrays : list array_data;
  objects : list object_data
}.

(** [examples::json_state state;] default-constructs every member. *)
Definition json_state_init : json_state :=
  {| result := None; keys := []; arrays := []; objects := [] |}.

Definition set_result (r : json_ptr) (state : json_state) : json_state :=
  {| result := r; keys := keys state;
     arrays := arrays state; objects := objects state |}.

Definition set_keys (ks : list string) (state : json_state) : json_state :=
  {| result := result state; keys := ks;
     arrays := arrays state; objects := objects state |}.

Definition set_arrays (ars : list array_data) (state : json_state)
  : json_state :=
  {| result := result state; keys := keys state;
     arrays := ars; objects := objects state |}.

Definition set_objects (obs : list object_data) (state : json_state)
  : json_state :=
  {| result := result state; keys := keys state;
     arrays := arrays state; objects := obs |}.

(** [action< pegtl::json::null >::apply0] *)
Definition action_null (state : json_state) : exec json_state :=
  Ret (set_result (Some null_json) state).

(** [action< pegtl::json::true_ >::apply0] *)
Definition action_true (state : json_state) : exec json_state :=
  Ret (set_result (Some (boolean_json true)) state).

(** [action< pegtl::json::false_ >::apply0] *)
Definition action_false (state : json_state) : exec json_state :=
  Ret (set_result (Some (boolean_json false)) state).

(** [action< pegtl::json::number >::apply]; [text] is [in.string()], the
    text the rule matched. *)
Definition action_number (text : string) (state : json_state)
  : exec json_state :=
  let v := stream_extract text in
  Ret (set_result (Some (number_json v)) state).

(** Modelled from the spec: [unescape_state_base] of [json_unescape.hpp],
    which is not among the sources: the private buffer of decoded text of
    one string or key production, empty when the state is created. *)
Record unescape_state_base : Type := mk_unescape_state {
  unescaped : string
}.

(** The constructors of [string_state] and [key_state] ignore their
    arguments and have empty bodies; the base class starts with an empty
    buffer. *)
Definition string_state_new : unescape_state_base :=
  {| unescaped := EmptyString |}.

Definition key_state_new : unescape_state_base :=
  {| unescaped := EmptyString |}.

(** Modelled from the spec: the actions of [json_unescape.hpp] that
    [action< Rule >] inherits for the rules inside a string; each appends
    the unit it decoded (a run of literal characters or one escape) to the
    buffer. *)
Definition unescape_append (s : unescape_state_base) (unit : string)
  : unescape_state_base :=
  {| unescaped := unescaped s +:+ unit |}.

(** [string_state::success] *)
Definition string_state_success (s : unescape_state_base)
  (state : json_state) : exec json_state :=
  Ret (set_result (Some (string_json (unescaped s))) state).

(** [key_state::success] *)
Definition key_state_success (s : unescape_state_base)
  (state : json_state) : exec json_state :=
  Ret (set_keys (push_back (unescaped s) (keys state)) state).

(** Modelled from the spec: [pegtl::change_state< NewState >] of
    [tao/pegtl/contrib/change_state.hpp], which is not among the sources.
    On entry to the rule a new state is constructed; the rule is matched
    with the new state in place of the build state, so that the actions
    below it see the accumulator only; on the successful exit of the rule
    [success] is called once with the build state, and the new state is
    destroyed.  [units] are the decoded units of the production in input
    order. *)
Definition change_state (new_state : unescape_state_base)
  (success : unescape_state_base → json_state → exec json_state)
  (units : list string) (state : json_state) : exec json_state :=
  let s := foldl unescape_append new_state units in
  success s state.

(** [action< pegtl::json::string::content >] *)
Definition action_string_content : list string → json_state → exec json_state :=
  change_state string_state_new string_state_success.

(** [action< pegtl::json::key::content >] *)
Definition action_key_content : list string → json_state → exec json_state :=
  change_state key_state_new key_state_success.

(** [action< pegtl::json::array::begin >::apply0] *)
Definition action_array_begin (state : json_state) : exec json_state :=
  Ret (set_arrays (push_back [] (arrays state)) state).

(** [action< pegtl::json::array::element >::apply0].  [state.result] is
    moved from, which leaves it empty.  Nothing checks that the vector has
    a last element. *)
Definition action_array_element (state : json_state) : exec json_state :=
  match back (arrays state) with
  | None => Undefined
  | Some a =>
      Ret (set_result None
             (set_arrays
                (set_back (push_back (result state) a) (arrays state))
                state))
  end.

(** [action< pegtl::json::array::end >::apply0] *)
Definition action_array_end (state : json_state) : exec json_state :=
  match back (arrays state) with
  | None => Undefined
  | Some a =>
      Ret (set_arrays (pop_back (arrays state))
             (set_result (Some (array_json a)) state))
  end.

(** [action< pegtl::json::object::begin >::apply0] *)
Definition action_object_begin (state : json_state) : exec json_state :=
  Ret (set_objects (push_back ∅ (objects state)) state).

(** [action< pegtl::json::object::element >::apply0].  [data[ key ] = value]
    on a [std::map] replaces the value of a key that is present and adds
    the key otherwise. *)
Definition action_object_element (state : json_state) : exec json_state :=
  match back (objects state), back (keys state) with
  | Some o, Some k =>
      Ret (set_keys (pop_back (keys state))
             (set_result None
                (set_objects
                   (set_back (<[k := result state]> o) (objects state))
                   state)))
  | _, _ => Undefined
  end.

(** [action< pegtl::json::object::end >::apply0] *)
Definition action_object_end (state : json_state) : exec json_state :=
  match back (objects state) with
  | None => Undefined
  | Some o =>
      Ret (set_objects (pop_back (objects state))
             (set_result (Some (object_json o)) state))
  end.

(** ** Events of the engine *)

(** One event per rule that has an action on the build state, with the
    payload the action receives. *)
Inductive event : Type :=
| ev_null
| ev_true
| ev_false
| ev_number (text : string)
| ev_string_content (units : list string)
| ev_array_begin
| ev_array_element
| ev_array_end
| ev_object_begin
| ev_key_content (units : list string)
| ev_object_element
| ev_object_end.

(** The class template [action< Rule >]: the static association of a rule
    with its action. *)
Definition action (ev : event) : json_state → exec json_state :=
  match ev with
  | ev_null => action_null
  | ev_true => action_true
  | ev_false => action_false
  | ev_number text => action_number text
  | ev_string_content units => action_string_content units
  | ev_array_begin => action_array_begin
  | ev_array_element => action_array_element
  | ev_array_end => action_array_end
  | ev_object_begin => action_object_begin
  | ev_key_content units => action_key_content units
  | ev_object_element => action_object_element
  | ev_object_end => action_object_end
  end.

(** The actions of a sequence of events, applied in order; the first one
    that does not return ends the run. *)
Fixpoint run_events (evs : list event) (state : json_state)
  : exec json_state :=
  match evs with
  | [] => Ret state
  | ev :: evs' => state' ←ₑ action ev state; run_events evs' state'
  end.

(** Modelled from the spec: the nesting of the rules of [pegtl::json::text]
    ([tao/pegtl/contrib/json.hpp], which is not among the sources).  A value
    as the grammar matches it: the members of an object and the elements of
    an array in input order, keys and strings as their decoded units,
    numbers as their text. *)
#[warnings="-register-all"]
Inductive value : Type :=
| v_null
| v_true
| v_false
| v_number (text : string)
| v_string (units : list string)
| v_array (elements : list value)
| v_object (members : list (list string * value)).

(** Modelled from the spec: the events the engine raises while it matches
    a value, in order.  An array raises its begin event, after each element
    the element event, and its end event; an object likewise, each member
    being its key content, its value and the element event. *)
Fixpoint events (v : value) : list event :=
  match v with
  | v_null => [ev_null]
  | v_true => [ev_true]
  | v_false => [ev_false]
  | v_number text => [ev_number text]
  | v_string units => [ev_string_content units]
  | v_array elements =>
      ev_array_begin
        :: flat_map (λ e, events e ++ [ev_array_element]) elements
        ++ [ev_array_end]
  | v_object members =>
      ev_object_begin
        :: flat_map (λ m, ev_key_content m.1 :: events m.2
                            ++ [ev_object_element]) members
        ++ [ev_object_end]
  end.

(** The decoded text of a string or key production. *)
Definition decoded (units : list string) : string :=
  foldl String.append EmptyString units.

(** The tree a value stands for: a later member replaces an earlier one
    with the same key. *)
Fixpoint tree (v : value) : json_base :=
  match v with
  | v_null => null_json
  | v_true => boolean_json true
  | v_false => boolean_json false
  | v_number text => number_json (stream_extract text)
  | v_string units => string_json (decoded units)
  | v_array elements => array_json (map (λ e, Some (tree e)) elements)
  | v_object members =>
      object_json
        (foldl (λ o m, <[decoded m.1 := Some (tree m.2)]> o) ∅ members)
  end.

(** The specification of a value: its events leave its tree in the result
    and change nothing else. *)
Definition builds (v : value) : Prop :=
  ∀ state,
    run_events (events v) state = Ret (set_result (Some (tree v)) state).

(** ** Stack discipline of an event sequence *)

(** The sizes of the three vectors of the build state. *)
Record heights : Type := mk_heights {
  n_keys : nat;
  n_arrays : nat;
  n_objects : nat
}.

Definition heights_of (state : json_state) : heights :=
  {| n_keys := length (keys state);
     n_arrays := length (arrays state);
     n_objects := length (objects state) |}.

(** The effect of an event on the sizes; [None] when the event needs an
    element that is not there. *)
Definition track (ev : event) (h : heights) : option heights :=
  match ev with
  | ev_null | ev_true | ev_false | ev_number _ | ev_string_content _ =>
      Some h
  | ev_array_begin =>
      Some (mk_heights (n_keys h) (S (n_arrays h)) (n_objects h))
  | ev_array_element =>
      match n_arrays h with
      | 0 => None
      | S _ => Some h
      end
  | ev_array_end =>
      match n_arrays h with
      | 0 => None
      | S n => Some (mk_heights (n_keys h) n (n_objects h))
      end
  | ev_object_begin =>
      Some (mk_heights (n_keys h) (n_arrays h) (S (n_objects h)))
  | ev_key_content _ =>
      Some (mk_heights (S (n_keys h)) (n_arrays h) (n_objects h))
  | ev_object_element =>
      match n_objects h, n_keys h with
      | S _, S n => Some (mk_heights n (n_arrays h) (n_objects h))
      | _, _ => None
      end
  | ev_object_end =>
      match n_objects h with
      | 0 => None
      | S n => Some (mk_heights (n_keys h) (n_arrays h) n)
      end
  end.

Fixpoint track_all (evs : list event) (h : heights) : option heights :=
  match evs with
  | [] => Some h
  | ev :: evs' =>
      match track ev h with
      | Some h' => track_all evs' h'
      | None => None
      end
  end.

(** An event sequence is stack-balanced from sizes [h] when no event of it
    needs an element of an empty vector. *)
Definition balanced (h : heights) (evs : list event) : bool :=
  bool_decide (is_Some (track_all evs h)).

(** The vector an event needs an element of is empty. *)
Definition starved (ev : event) (state : json_state) : bool :=
  match ev with
  | ev_array_element | ev_array_end => is_empty (arrays state)
  | ev_object_end => is_empty (objects state)
  | ev_object_element => is_empty (objects state) || is_empty (keys state)
  | _ => false
  end.

End Builder.

(** ** The grammar engine *)

(** Modelled from the spec: the input of the engine
    ([pegtl::file_input]): the number of bytes consumed so far, which is
    the position the engine reports, and the text that remains. *)
Record input : Type := mk_input {
  consumed : nat;
  remaining : string
}.

Definition input_start (contents : string) : input :=
  {| consumed := 0; remaining := contents |}.

Definition input_empty (i : input) : bool :=
  match remaining i with
  | EmptyString => true
  | String _ _ => false
  end.

(** Modelled from the spec: what matching a rule at an input does.  The
    rule matches and leaves the input after the match; or it fails locally
    and leaves the input where it stopped; or it fails globally with an
    exception.  In each case [trace] lists the events raised up to there, in
    order: an action never undoes what an earlier one did.  Matching does
    not read the build state, so a rule is a function of the input alone. *)
Inductive matched : Type :=
| Match (trace : list event) (i : input)
| Fail (trace : list event) (i : input)
| Raise (trace : list event) (e : parse_error).

Definition rule : Type := input → matched.

Definition matches (m : matched) : bool :=
  match m with
  | Match _ _ => true
  | Fail _ _ | Raise _ _ => false
  end.

Definition trace_of (m : matched) : list event :=
  match m with
  | Match tr _ | Fail tr _ | Raise tr _ => tr
  end.

(** Modelled from the spec: [pegtl::eof], which matches at the end of the
    input only and consumes nothing. *)
Definition eof : rule :=
  λ i, if input_empty i then Match [] i else Fail [] i.

(** Modelled from the spec: [pegtl::must< Rule >], which turns the local
    failure of its rule into the global failure raised by the control class
    at the position where the input stands. *)
Definition must (error_message : string) (r : rule) : rule :=
  λ i,
    match r i with
    | Fail tr i' => Raise tr (mk_parse_error (consumed i') error_message)
    | m => m
    end.

(** Modelled from the spec: [pegtl::seq< A, B >], one rule after the
    other. *)
Definition seq (a b : rule) : rule :=
  λ i,
    match a i with
    | Match tr1 i1 =>
        match b i1 with
        | Match tr2 i2 => Match (tr1 ++ tr2) i2
        | Fail tr2 i2 => Fail (tr1 ++ tr2) i2
        | Raise tr2 e => Raise (tr1 ++ tr2) e
        end
    | m => m
    end.

(** The rules that [grammar] requires. *)
Inductive required : Type :=
| required_text
| required_eof.

(** What the program takes from outside: the rule [pegtl::json::text]
    ([tao/pegtl/contrib/json.hpp]), the messages of the control class
    [examples::errors] ([json_errors.hpp]), and the contents of the files. *)
Class Engine : Type := {
  json_text : rule;
  error_message : required → string;
  file_contents : string → string
}.

Section Driver.
Context `{LongDouble} `{Engine}.

(** [using grammar = pegtl::must< pegtl::json::text, pegtl::eof >;] where
    [must< A, B >] is [seq< must< A >, must< B > >]. *)
Definition grammar : rule :=
  seq (must (error_message required_text) json_text)
      (must (error_message required_eof) eof).

(** Modelled from the spec: [pegtl::parse< Rule, Action, Control >]: the
    events of the match go to their actions in order; the call returns
    whether the rule matched, or leaves by the exception of a global
    failure. *)
Definition parse (r : rule) (i : input) (state : json_state)
  : exec (bool * json_state) :=
  match r i with
  | Match tr _ => state' ←ₑ run_events tr state; Ret (true, state')
  | Fail tr _ => state' ←ₑ run_events tr state; Ret (false, state')
  | Raise tr e => _ ←ₑ run_events tr state; Throw e
  end.

(** [assert( cond )] *)
Definition assert (cond : bool) (expr : string) : exec unit :=
  if cond then Ret () else Abort expr.

(** What [main] writes: the usage line or the result. *)
Inductive output : Type :=
| usage (program : string)
| document (root : json_ptr).

(** [main]; [argv[ 0 ]] is [program] and [args] are the arguments after
    it.  The value of [pegtl::parse] is not used, and no exception is
    caught. *)
Definition main (program : string) (args : list string) : exec output :=
  match args with
  | [path] =>
      let state := json_state_init in
      let i := input_start (file_contents path) in
      ps ←ₑ parse grammar i state;
      let state := ps.2 in
      _ ←ₑ assert (is_empty (keys state)) "state.keys.empty()";
      _ ←ₑ assert (is_empty (arrays state)) "state.arrays.empty()";
      _ ←ₑ assert (is_empty (objects state)) "state.objects.empty()";
      Ret (document (result state))
  | _ => Ret (usage program)
  end.

End Driver.

(** ** Reference instances *)

(** A number type for the examples: [long double] as it is on x86-64
    Linux, the x87 extended format with a significand of 64 bits, and the
    extraction as the C++ library of GCC performs it in the C locale.  The
    stream skips white space, takes a sign, digits with at most one point,
    and after at least one digit an exponent mark with its sign and digits,
    and stops at the first character that does not fit.  What it took is
    converted as a whole, rounding to the nearest value, ties to even: when
    it has no digit, or an exponent mark without digits, the extraction
    fails and stores zero; when the value is too large it fails and stores
    the largest finite value with the sign.  The action does not see the
    failure. *)
Definition char_code (c : Ascii.ascii) : Z := Z.of_nat (Ascii.nat_of_ascii c).

Definition is_space (c : Ascii.ascii) : bool :=
  bool_decide (char_code c = 32 ∨ 9 ≤ char_code c ≤ 13)%Z.

Fixpoint skip_space (s : string) : string :=
  match s with
  | String c s' => if is_space c then skip_space s' else s
  | EmptyString => s
  end.

Definition digit_value (c : Ascii.ascii) : option Z :=
  if bool_decide (48 ≤ char_code c ≤ 57)%Z
  then Some (char_code c - 48)%Z
  else None.

(** An optional sign: whether it is a minus, and the text after it. *)
Definition scan_sign (s : string) : bool * string :=
  match s with
  | String c s' =>
      if bool_decide (char_code c = 45)%Z then (true, s')
      else if bool_decide (char_code c = 43)%Z then (false, s')
      else (false, s)
  | EmptyString => (false, s)
  end.

(** A run of digits continuing the number [m]: the number, how many digits
    were added to the count [n], and the text after them. *)
Fixpoint scan_digits (s : string) (m n : Z) : Z * Z * string :=
  match s with
  | String c s' =>
      match digit_value c with
      | Some d => scan_digits s' (10 * m + d)%Z (n + 1)%Z
      | None => (m, n, s)
      end
  | EmptyString => (m, n, s)
  end.

(** The digits after a point, if the text starts with one. *)
Definition scan_fraction (s : string) (m : Z) : Z * Z * string :=
  match s with
  | String c s' =>
      if bool_decide (char_code c = 46)%Z then scan_digits s' m 0
      else (m, 0%Z, s)
  | EmptyString => (m, 0%Z, s)
  end.

(** The exponent, if the text starts with its mark: its value, and whether
    it has a digit. *)
Definition scan_exponent (s : string) : option (Z * bool) :=
  match s with
  | String c s' =>
      if bool_decide (char_code c = 101 ∨ char_code c = 69)%Z
      then
        let '(negative, s1) := scan_sign s' in
        let '(e, n, _) := scan_digits s1 0 0 in
        Some (if negative then (- e)%Z else e, bool_decide (0 < n)%Z)
      else None
  | EmptyString => None
  end.

Definition ld_prec : Z := 64.
Definition ld_emax : Z := 16384.

(** The [long double] nearest to [m] times ten to the [e10], for [m] of
    at most [digits] decimal digits; infinite when it is too large.  Far
    out of range the powers of ten are not computed. *)
Definition ld_nearest (negative : bool) (m digits e10 : Z) : spec_float :=
  if bool_decide (m = 0)%Z then S754_zero negative
  else if bool_decide (5000 < e10)%Z then S754_infinity negative
  else if bool_decide (e10 + digits < -5000)%Z then S754_zero negative
  else if bool_decide (0 ≤ e10)%Z
    then binary_normalize ld_prec ld_emax
           (cond_Zopp negative (m * 10 ^ e10)%Z) 0 negative
    else SFdiv ld_prec ld_emax
           (S754_finite negative (Z.to_pos m) 0)
           (S754_finite false (Z.to_pos (10 ^ (- e10))) 0).

(** What the extraction stores for a value too large. *)
Definition ld_store (x : spec_float) : spec_float :=
  match x with
  | S754_infinity negative =>
      if negative then SFopp (SFmax_float ld_prec ld_emax)
      else SFmax_float ld_prec ld_emax
  | _ => x
  end.

Definition ld_extract (text : string) : spec_float :=
  let '(negative, s1) := scan_sign (skip_space text) in
  let '(m1, n1, s2) := scan_digits s1 0 0 in
  let '(m, n2, s3) := scan_fraction s2 m1 in
  if bool_decide (n1 + n2 = 0)%Z then S754_zero false
  else
    match scan_exponent s3 with
    | None => ld_store (ld_nearest negative m (n1 + n2) (- n2))
    | Some (e, true) => ld_store (ld_nearest negative m (n1 + n2) (e - n2))
    | Some (_, false) => S754_zero false
    end.

Definition x87_long_double : LongDouble :=
  {| long_double := spec_float; stream_extract := ld_extract |}.

(** The [long double] of an integer. *)
Definition ld_of_Z (n : Z) : spec_float :=
  binary_normalize ld_prec ld_emax n 0 false.

Definition quote : string := String (Ascii.ascii_of_nat 34) EmptyString.

(** Modelled from the spec: the texts of the examples of the spec and
    what the engine does on each: the events of the value matched and the
    input left, or the global failure at the position of what is missing. *)
Definition example_null : string := "null".

Definition example_array : string := "[1, 2, 3]".

Definition example_duplicate : string :=
  "{" +:+ quote +:+ "a" +:+ quote +:+ ": 1, "
      +:+ quote +:+ "a" +:+ quote +:+ ": 2}".

Definition example_nested : string :=
  "{" +:+ quote +:+ "x" +:+ quote +:+ ": [true, false, null]}".

Definition example_malformed : string :=
  "{" +:+ quote +:+ "a" +:+ quote +:+ ": }".

Definition example_trailing : string := "null x".

Definition value_array : value :=
  v_array [v_number "1"; v_number "2"; v_number "3"].

Definition value_duplicate : value :=
  v_object [(["a"], v_number "1"); (["a"], v_number "2")].

Definition value_nested : value :=
  v_object [(["x"], v_array [v_true; v_false; v_null])].

Definition example_matches : list (string * matched) :=
  [ (example_null, Match (events v_null) (mk_input 4 EmptyString));
    (example_array, Match (events value_array) (mk_input 9 EmptyString));
    (example_duplicate,
      Match (events value_duplicate) (mk_input 16 EmptyString));
    (example_nested,
      Match (events value_nested) (mk_input 26 EmptyString));
    (example_malformed,
      Raise [ev_object_begin; ev_key_content ["a"]]
        (mk_parse_error 6 "expected value"));
    (example_trailing, Match (events v_null) (mk_input 5 "x")) ].

Fixpoint assoc {V : Type} (k : string) (table : list (string * V))
  : option V :=
  match table with
  | [] => None
  | (k', v) :: table' => if decide (k' = k) then Some v else assoc k table'
  end.

Definition example_text : rule :=
  λ i, default (Fail [] i) (assoc (remaining i) example_matches).

Definition example_messages (r : required) : string :=
  match r with
  | required_text => "no valid JSON"
  | required_eof => "unexpected character after JSON value"
  end.

(** A file system in which a file holds its own name. *)
Definition example_engine : Engine :=
  {| json_text := example_text;
     error_message := example_messages;
     file_contents := λ path, path |}.

(** An engine whose text rule raises a begin event and never the end
    event: a grammar that is not the one the actions were written for. *)
Definition unbalanced_engine : Engine :=
  {| json_text := λ i, Match [ev_array_begin] (mk_input 1 EmptyString);
     error_message := example_messages;
     file_contents := λ path, path |}.

(** ** Matching without actions ([tao/pegtl/contrib/disable_action.hpp]) *)

(** [enum class apply_mode]: whether the actions of the rules matched are
    executed. *)
Inductive apply_mode : Type :=
| apply_action
| apply_nothing.

(** What a match leaves when no action is executed: the same outcome at
    the same place, and no event. *)
Definition silent (m : matched) : matched :=
  match m with
  | Match _ i => Match [] i
  | Fail _ i => Fail [] i
  | Raise _ e => Raise [] e
  end.

(** Modelled from the spec: [pegtl::match< Rule, A, M, Action, Control >],
    the entry of the engine for one rule ([tao/pegtl/match.hpp], which is
    not among the sources).  With [apply_mode::action] the actions of the
    rule and of the rules below it are executed; with [apply_mode::nothing]
    the rule consumes the input in the same way and no action is executed,
    neither an [apply] nor the [success] of a changed state. *)
Definition engine_match (r : rule) (A : apply_mode) : rule :=
  λ i,
    match A with
    | apply_action => r i
    | apply_nothing => silent (r i)
    end.

(** [disable_action::match]: the apply mode [A] of the caller is replaced
    by [apply_mode::nothing]. *)
Definition disable_action_match (r : rule) (A : apply_mode) : rule :=
  engine_match r apply_nothing.

(** ** Shapes of states and trees *)

Section Shapes.
Context `{LongDouble}.


(** The three vectors of [state'] begin with those of [state]: what was
    on them is still there, unchanged, below what was pushed since. *)
Definition extends (state state' : json_state) : Prop :=
  keys state `prefix_of` keys state'
  ∧ arrays state `prefix_of` arrays state'
  ∧ objects state `prefix_of` objects state'.

(** While the events of [v] are processed, in whole or in part, what was
    on the three vectors before stays there. *)
Definition keeps_below (v : value) : Prop :=
  ∀ tr more state state',
    events v = tr ++ more →
    run_events tr state = Ret state' →
    extends state state'.

End Shapes.

(** * Properties *)

(** ** Vectors *)

Section VectorFacts.
Context {A : Type}.
Implicit Types (v : list A) (x y : A).

Lemma back_push_back x v : back (push_back x v) = Some x.
Proof. apply last_snoc. Qed.

Lemma pop_back_push_back x v : pop_back (push_back x v) = v.
Proof. apply removelast_last. Qed.

Lemma set_back_push_back x y v : set_back y (push_back x v) = push_back y v.
Proof.
  unfold set_back, push_back. rewrite length_app. simpl.
  replace (pred (length v + 1)) with (length v + 0) by lia.
  by rewrite insert_app_r.
Qed.

Lemma back_is_empty v : back v = None ↔ is_empty v = true.
Proof.
  unfold back. rewrite last_None. by destruct v.
Qed.

Lemma back_Some v x : back v = Some x → v = push_back x (pop_back v).
Proof.
  unfold back, push_back, pop_back. intros Hlast.
  apply last_Some in Hlast as [v' ->]. by rewrite removelast_last.
Qed.

Lemma is_empty_length v : is_empty v = true ↔ length v = 0.
Proof. destruct v; simpl; split; (done || lia). Qed.

Lemma length_pop_back v : length (pop_back v) = pred (length v).
Proof.
  destruct (back v) as [x|] eqn:Hb.
  - apply back_Some in Hb. rewrite Hb at 2.
    unfold push_back. rewrite length_app. simpl. lia.
  - apply back_is_empty in Hb. by destruct v.
Qed.

Lemma back_Some_length v x :
  back v = Some x → length v = S (length (pop_back v)).
Proof.
  intros Hb. apply back_Some in Hb. rewrite Hb at 1.
  unfold push_back. rewrite length_app. simpl. lia.
Qed.

Lemma back_None_length v : back v = None → length v = 0.
Proof. intros Hb. apply back_is_empty in Hb. by destruct v. Qed.

Lemma length_set_back x v : length (set_back x v) = length v.
Proof. apply length_insert. Qed.

End VectorFacts.

(** ** The induction principle of values *)

Lemma value_nested_ind (P : value → Prop) :
  P v_null → P v_true → P v_false →
  (∀ text, P (v_number text)) →
  (∀ units, P (v_string units)) →
  (∀ elements, Forall P elements → P (v_array elements)) →
  (∀ members, Forall (λ m, P m.2) members → P (v_object members)) →
  ∀ v, P v.
Proof.
  intros Hnull Htrue Hfalse Hnumber Hstring Harray Hobject.
  fix IH 1. intros [| | | text | units | elements | members].
  - exact Hnull.
  - exact Htrue.
  - exact Hfalse.
  - apply Hnumber.
  - apply Hstring.
  - apply Harray. induction elements as [|e elements IHl].
    + constructor.
    + constructor; [apply IH | exact IHl].
  - apply Hobject. induction members as [|[k m] members IHl].
    + constructor.
    + constructor; [apply IH | exact IHl].
Qed.

(** ** Running events *)

Section RunFacts.
Context `{LongDouble}.
Implicit Types (state : json_state) (ev : event) (evs : list event).

Lemma exec_bind_Ret {A B : Type} (a : A) (k : A → exec B) :
  exec_bind (Ret a) k = k a.
Proof. reflexivity. Qed.

Lemma exec_bind_returns {A B : Type} (m : exec A) (k : A → exec B) b :
  exec_bind m k = Ret b → ∃ a, m = Ret a ∧ k a = Ret b.
Proof. destruct m; simpl; intros; try discriminate. eauto. Qed.

Lemma run_events_app evs1 evs2 state :
  run_events (evs1 ++ evs2) state
  = state' ←ₑ run_events evs1 state; run_events evs2 state'.
Proof.
  revert state. induction evs1 as [|ev evs1 IH]; intros state; simpl.
  - reflexivity.
  - destruct (action ev state); simpl; auto.
Qed.

Lemma run_events_prefix evs1 evs2 state state2 :
  run_events (evs1 ++ evs2) state = Ret state2 →
  ∃ state1, run_events evs1 state = Ret state1
            ∧ run_events evs2 state1 = Ret state2.
Proof. rewrite run_events_app. apply exec_bind_returns. Qed.

Lemma unescaped_foldl s units :
  unescaped (foldl unescape_append s units)
  = foldl String.append (unescaped s) units.
Proof.
  revert s. induction units as [|u units IH]; intros s; simpl.
  - reflexivity.
  - by rewrite IH.
Qed.

Lemma action_string_content_eq units state :
  action_string_content units state
  = Ret (set_result (Some (string_json (decoded units))) state).
Proof.
  unfold action_string_content, change_state, string_state_success.
  by rewrite unescaped_foldl.
Qed.

Lemma action_key_content_eq units state :
  action_key_content units state
  = Ret (set_keys (push_back (decoded units) (keys state)) state).
Proof.
  unfold action_key_content, change_state, key_state_success.
  by rewrite unescaped_foldl.
Qed.

Lemma run_elements elements :
  Forall builds elements →
  ∀ r ks ars a obs,
    run_events
      (flat_map (λ e, events e ++ [ev_array_element]) elements)
      (mk_json_state r ks (push_back a ars) obs)
    = Ret (mk_json_state
             (match elements with [] => r | _ => None end) ks
             (push_back (a ++ map (λ e, Some (tree e)) elements) ars) obs).
Proof.
  induction 1 as [|e elements He _ IH]; intros r ks ars a obs; simpl.
  - by rewrite app_nil_r.
  - rewrite run_events_app, run_events_app, He. simpl.
    unfold action_array_element. simpl.
    rewrite back_push_back. simpl.
    unfold set_result, set_arrays. simpl.
    rewrite set_back_push_back, IH.
    unfold push_back at 2. rewrite <- app_assoc. simpl.
    by destruct elements.
Qed.

Lemma run_members members :
  Forall (λ m, builds m.2) members →
  ∀ r ks ars o obs,
    run_events
      (flat_map (λ m, ev_key_content m.1 :: events m.2
                        ++ [ev_object_element]) members)
      (mk_json_state r ks ars (push_back o obs))
    = Ret (mk_json_state
             (match members with [] => r | _ => None end) ks ars
             (push_back
                (foldl (λ o m, <[decoded m.1 := Some (tree m.2)]> o)
                   o members) obs)).
Proof.
  induction 1 as [|[units v] members Hv _ IH]; intros r ks ars o obs; simpl.
  - reflexivity.
  - rewrite unescaped_foldl. fold (decoded units).
    rewrite run_events_app, run_events_app. simpl in Hv. rewrite Hv. simpl.
    unfold action_object_element. simpl.
    rewrite !back_push_back. simpl.
    unfold set_result, set_keys, set_objects. simpl.
    rewrite set_back_push_back, pop_back_push_back, IH.
    by destruct members.
Qed.

Lemma run_events_value v : builds v.
Proof.
  induction v as [| | | text | units | elements IH | members IH]
    using value_nested_ind; intros [r ks ars obs]; try reflexivity.
  - simpl. by rewrite unescaped_foldl.
  - simpl. unfold action_array_begin, set_arrays. simpl.
    rewrite run_events_app, run_elements by done. simpl.
    unfold action_array_end. simpl.
    rewrite back_push_back. unfold set_arrays, set_result. simpl.
    by rewrite pop_back_push_back.
  - simpl. unfold action_object_begin, set_objects. simpl.
    rewrite run_events_app, run_members by done. simpl.
    unfold action_object_end. simpl.
    rewrite back_push_back. unfold set_objects, set_result. simpl.
    by rewrite pop_back_push_back.
Qed.

End RunFacts.

(** ** Objects: a later member replaces an earlier one *)

Section ObjectFacts.
Context `{LongDouble}.





End ObjectFacts.

(** ** The actions one by one *)

Section ActionFacts.
Context `{LongDouble}.
Implicit Types (state : json_state) (ev : event) (evs : list event).

(** C8. In every build state the action of the null literal puts a null
    value in the result, and the actions of the true and false literals put
    the boolean values true and false there; what the result held before is
    replaced, and the three vectors are as they were. *)
Theorem literal_actions_set_result (r : json_ptr) (ks : list string)
  (ars : list array_data) (obs : list object_data) :
  action ev_null (mk_json_state r ks ars obs)
  = Ret (mk_json_state (Some null_json) ks ars obs)
  ∧ action ev_true (mk_json_state r ks ars obs)
    = Ret (mk_json_state (Some (boolean_json true)) ks ars obs)
  ∧ action ev_false (mk_json_state r ks ars obs)
    = Ret (mk_json_state (Some (boolean_json false)) ks ars obs).
Proof. by repeat split. Qed.

(** The action of a number puts in the result, in place of what was there,
    the number that the stream extraction stored for the text; the three
    vectors stay.  It does not look at the state of the stream. *)
Lemma action_number_eq (text : string) (r : json_ptr) (ks : list string)
  (ars : list array_data) (obs : list object_data) :
  action (ev_number text) (mk_json_state r ks ars obs)
  = Ret (mk_json_state (Some (number_json (stream_extract text)))
           ks ars obs).
Proof. reflexivity. Qed.

(** The decoded text of a production is its units one after the other. *)
Lemma decoded_app units1 units2 :
  decoded (units1 ++ units2)
  = foldl String.append (decoded units1) units2.
Proof. unfold decoded. by rewrite foldl_app. Qed.

Lemma decoded_snoc units unit :
  decoded (units ++ [unit]) = decoded units +:+ unit.
Proof. by rewrite decoded_app. Qed.

Lemma string_append_nil_r (s : string) : s +:+ EmptyString = s.
Proof.
  induction s as [|c s IH]; [done|].
  change (String c s +:+ EmptyString) with (String c (s +:+ EmptyString)).
  by rewrite IH.
Qed.

Lemma string_append_assoc (s1 s2 s3 : string) :
  (s1 +:+ s2) +:+ s3 = s1 +:+ (s2 +:+ s3).
Proof.
  induction s1 as [|c s1 IH]; [done|].
  change ((String c s1 +:+ s2) +:+ s3)
    with (String c ((s1 +:+ s2) +:+ s3)).
  by rewrite IH.
Qed.

Lemma foldl_append_concat (acc : string) (units : list string) :
  foldl String.append acc units
  = acc +:+ String.concat EmptyString units.
Proof.
  revert acc. induction units as [|u units IH]; intros acc.
  - simpl. by rewrite string_append_nil_r.
  - simpl foldl. rewrite IH. destruct units as [|u' units].
    + simpl. by rewrite string_append_nil_r.
    + change (String.concat EmptyString (u :: u' :: units))
        with (u +:+ EmptyString
                +:+ String.concat EmptyString (u' :: units)).
      change (EmptyString +:+ String.concat EmptyString (u' :: units))
        with (String.concat EmptyString (u' :: units)).
      apply string_append_assoc.
Qed.

(** The decoded text is the concatenation of the units. *)
Lemma decoded_concat (units : list string) :
  decoded units = String.concat EmptyString units.
Proof. unfold decoded. by rewrite foldl_append_concat. Qed.

(** C5. Each string or key production delivers the text of its own units,
    concatenated in order, to exactly one place.  When a string content
    production exits, the result becomes the string of that text, in place
    of what was there, and the pending keys, the arrays and the objects
    stay; when a key content production exits, that text becomes the last
    of the pending keys, after those already pending, and the result, the
    arrays and the objects stay.  The accumulator lives for one production:
    of two productions in a row each delivers its own text alone, a key
    and a string do not mix, and the object element that follows a key and
    a string stores that string under that key and removes the key from
    the pending keys. *)
Theorem content_productions_deliver (units units' : list string)
  (r : json_ptr) (ks : list string) (ars : list array_data)
  (obs : list object_data) (o : object_data) :
  action (ev_string_content units) (mk_json_state r ks ars obs)
  = Ret (mk_json_state
           (Some (string_json (String.concat EmptyString units)))
           ks ars obs)
  ∧ action (ev_key_content units) (mk_json_state r ks ars obs)
    = Ret (mk_json_state r (ks ++ [String.concat EmptyString units])
             ars obs)
  ∧ run_events [ev_string_content units; ev_string_content units']
      (mk_json_state r ks ars obs)
    = Ret (mk_json_state
             (Some (string_json (String.concat EmptyString units')))
             ks ars obs)
  ∧ run_events [ev_key_content units; ev_key_content units']
      (mk_json_state r ks ars obs)
    = Ret (mk_json_state r
             (ks ++ [String.concat EmptyString units;
                     String.concat EmptyString units'])
             ars obs)
  ∧ run_events [ev_key_content units; ev_string_content units']
      (mk_json_state r ks ars obs)
    = Ret (mk_json_state
             (Some (string_json (String.concat EmptyString units')))
             (ks ++ [String.concat EmptyString units]) ars obs)
  ∧ run_events
      [ev_key_content units; ev_string_content units'; ev_object_element]
      (mk_json_state r ks ars (obs ++ [o]))
    = Ret (mk_json_state None ks ars
             (obs ++ [<[String.concat EmptyString units
                        := Some (string_json
                                   (String.concat EmptyString units'))]>
                        o])).
Proof.
  assert (Hstring : ∀ u r ks ars obs,
    action (ev_string_content u) (mk_json_state r ks ars obs)
    = Ret (mk_json_state (Some (string_json (String.concat EmptyString u)))
             ks ars obs)).
  { intros. rewrite <- decoded_concat.
    exact (action_string_content_eq _ _). }
  assert (Hkey : ∀ u r ks ars obs,
    action (ev_key_content u) (mk_json_state r ks ars obs)
    = Ret (mk_json_state r (ks ++ [String.concat EmptyString u])
             ars obs)).
  { intros. rewrite <- decoded_concat.
    exact (action_key_content_eq _ _). }
  split; [apply Hstring|]. split; [apply Hkey|].
  cbn [run_events].
  rewrite !Hstring, !Hkey. cbn [exec_bind]. rewrite !Hstring, !Hkey.
  cbn [exec_bind].
  split; [done|]. split; [by rewrite <- app_assoc|]. split; [done|].
  cbn [action]. unfold action_object_element. cbn [objects keys result].
  change (back (obs ++ [o])) with (back (push_back o obs)).
  change (back (ks ++ [String.concat EmptyString units]))
    with (back (push_back (String.concat EmptyString units) ks)).
  rewrite !back_push_back.
  unfold set_keys, set_result, set_objects.
  cbn [objects keys result arrays].
  change (obs ++ [o]) with (push_back o obs).
  change (ks ++ [String.concat EmptyString units])
    with (push_back (String.concat EmptyString units) ks).
  by rewrite set_back_push_back, pop_back_push_back.
Qed.

(** C2. With an array builder [a] on top of the array vector, the action
    of an array element appends the result to [a] and leaves the result
    empty, and the action of the array end removes [a] from the vector and
    puts the array in the result.  Hence the events of an array (its begin,
    for each element the events of its value and the element event, its
    end) leave in the result the array of the trees of its elements in the
    order of the events, and the rest of the state as it was. *)
Theorem array_elements_in_event_order (r : json_ptr) (ks : list string)
  (ars : list array_data) (a : array_data) (obs : list object_data)
  (elements : list value) :
  action ev_array_element (mk_json_state r ks (push_back a ars) obs)
  = Ret (mk_json_state None ks (push_back (push_back r a) ars) obs)
  ∧ action ev_array_end (mk_json_state r ks (push_back a ars) obs)
    = Ret (mk_json_state (Some (array_json a)) ks ars obs)
  ∧ run_events
      (ev_array_begin
         :: flat_map (λ e, events e ++ [ev_array_element]) elements
         ++ [ev_array_end])
      (mk_json_state r ks ars obs)
    = Ret (mk_json_state
             (Some (array_json (map (λ e, Some (tree e)) elements)))
             ks ars obs).
Proof.
  split; [|split].
  - simpl. unfold action_array_element. simpl.
    rewrite back_push_back. unfold set_result, set_arrays. simpl.
    by rewrite set_back_push_back.
  - simpl. unfold action_array_end. simpl.
    rewrite back_push_back. unfold set_result, set_arrays. simpl.
    by rewrite pop_back_push_back.
  - exact (run_events_value (v_array elements) (mk_json_state r ks ars obs)).
Qed.

(** C10. An action that returns has changed only its own part of the build
    state.  The literal, number and string content actions leave the three
    vectors as they were; the array actions leave the objects and the
    pending keys; the object begin and end actions leave the arrays and the
    pending keys; the key content action leaves the result, the arrays and
    the objects; the object element action leaves the arrays. *)
Theorem action_frame (ev : event) (state state' : json_state) :
  action ev state = Ret state' →
  match ev with
  | ev_null | ev_true | ev_false | ev_number _ | ev_string_content _ =>
      keys state' = keys state
      ∧ arrays state' = arrays state
      ∧ objects state' = objects state
  | ev_array_begin | ev_array_element | ev_array_end =>
      objects state' = objects state ∧ keys state' = keys state
  | ev_object_begin | ev_object_end =>
      arrays state' = arrays state ∧ keys state' = keys state
  | ev_key_content _ =>
      result state' = result state
      ∧ arrays state' = arrays state
      ∧ objects state' = objects state
  | ev_object_element => arrays state' = arrays state
  end.
Proof.
  destruct ev; simpl;
    unfold action_null, action_true, action_false, action_number,
      action_string_content, action_key_content, change_state,
      string_state_success, key_state_success,
      action_array_begin, action_array_element, action_array_end,
      action_object_begin, action_object_element, action_object_end;
    repeat (match goal with
            | |- context [match back ?v with _ => _ end] => destruct (back v)
            end);
    intros Hret; try discriminate; injection Hret as <-; by repeat split.
Qed.

(** ** Stack discipline *)

(** The sizes follow the actions: an event that the sizes allow returns
    and leaves the sizes tracked; an event they forbid has no defined
    behaviour. *)
Lemma action_track ev state :
  match track ev (heights_of state) with
  | Some h => ∃ state', action ev state = Ret state' ∧ heights_of state' = h
  | None => action ev state = Undefined
  end.
Proof.
  destruct state as [r ks ars obs].
  destruct ev; simpl;
    try (eexists; split; [reflexivity|]; unfold heights_of; simpl;
         unfold push_back; rewrite ?length_app; simpl;
         f_equal; lia).
  - (* array element *)
    unfold action_array_element. simpl.
    destruct (back ars) as [a|] eqn:Hb.
    + rewrite (back_Some_length _ _ Hb).
      eexists; split; [reflexivity|]. unfold heights_of. simpl.
      by rewrite length_set_back, (back_Some_length _ _ Hb).
    + by rewrite (back_None_length _ Hb).
  - (* array end *)
    unfold action_array_end. simpl.
    destruct (back ars) as [a|] eqn:Hb.
    + rewrite (back_Some_length _ _ Hb).
      eexists; split; [reflexivity|]. reflexivity.
    + by rewrite (back_None_length _ Hb).
  - (* object element *)
    unfold action_object_element. simpl.
    destruct (back obs) as [o|] eqn:Hbo.
    + rewrite (back_Some_length _ _ Hbo).
      destruct (back ks) as [k|] eqn:Hbk.
      * rewrite (back_Some_length _ _ Hbk).
        eexists; split; [reflexivity|]. unfold heights_of. simpl.
        by rewrite length_set_back, (back_Some_length _ _ Hbo).
      * by rewrite (back_None_length _ Hbk).
    + by rewrite (back_None_length _ Hbo).
  - (* object end *)
    unfold action_object_end. simpl.
    destruct (back obs) as [o|] eqn:Hb.
    + rewrite (back_Some_length _ _ Hb).
      eexists; split; [reflexivity|]. reflexivity.
    + by rewrite (back_None_length _ Hb).
Qed.

Lemma track_starved ev state :
  track ev (heights_of state) = None ↔ starved ev state = true.
Proof.
  destruct state as [r ks ars obs].
  destruct ev; simpl; try done.
  - by destruct ars.
  - by destruct ars.
  - destruct obs, ks; simpl; by split.
  - by destruct obs.
Qed.

Lemma action_starved ev state :
  starved ev state = true → action ev state = Undefined.
Proof.
  intros Hs. apply track_starved in Hs.
  pose proof (action_track ev state) as Ht. by rewrite Hs in Ht.
Qed.

Lemma action_fed ev state :
  starved ev state = false → ∃ state', action ev state = Ret state'.
Proof.
  intros Hs. pose proof (action_track ev state) as Ht.
  destruct (track ev (heights_of state)) as [h|] eqn:Hh.
  - destruct Ht as (state' & Hret & _). eauto.
  - apply track_starved in Hh. congruence.
Qed.

Lemma run_events_track evs state h :
  track_all evs (heights_of state) = Some h →
  ∃ state', run_events evs state = Ret state' ∧ heights_of state' = h.
Proof.
  revert state. induction evs as [|ev evs IH]; intros state; simpl.
  - intros [= <-]. eauto.
  - pose proof (action_track ev state) as Ht.
    destruct (track ev (heights_of state)) as [h1|]; [|done].
    destruct Ht as (state1 & -> & <-). simpl. apply IH.
Qed.

Lemma track_all_app evs1 evs2 h :
  track_all (evs1 ++ evs2) h
  = match track_all evs1 h with
    | Some h1 => track_all evs2 h1
    | None => None
    end.
Proof.
  revert h. induction evs1 as [|ev evs1 IH]; intros h; simpl; [done|].
  destruct (track ev h); auto.
Qed.

(** Conversely the sizes allow whatever the actions run through. *)
Lemma track_run_events evs state state' :
  run_events evs state = Ret state' →
  track_all evs (heights_of state) = Some (heights_of state').
Proof.
  revert state. induction evs as [|ev evs IH]; intros state; simpl.
  - by intros [= <-].
  - pose proof (action_track ev state) as Ht.
    destruct (track ev (heights_of state)) as [h1|].
    + destruct Ht as (state1 & -> & <-). simpl. apply IH.
    + by rewrite Ht.
Qed.

(** Any sizes are the sizes of some state. *)
Lemma heights_of_inhabited h : ∃ state, heights_of state = h.
Proof.
  destruct h as [nk na no].
  exists (mk_json_state None (replicate nk EmptyString)
            (replicate na []) (replicate no ∅)).
  unfold heights_of. simpl. by rewrite !length_replicate.
Qed.

(** C4, as the program has it.  No action checks for an empty vector: an
    array element, array end, object element or object end event that
    finds the vector it needs empty has undefined behaviour, and no action
    ever reports a failure.  When the event sequence is stack-balanced from
    the sizes of the state it starts in, that case does not arise: the
    whole sequence runs through, and each event of it finds the vector it
    needs non-empty and returns. *)
Theorem balanced_events_never_starved (evs : list event)
  (state : json_state) :
  balanced (heights_of state) evs = true →
  (∃ state', run_events evs state = Ret state')
  ∧ (∀ before ev after,
       evs = before ++ ev :: after →
       ∃ state1 state2,
         run_events before state = Ret state1
         ∧ starved ev state1 = false
         ∧ action ev state1 = Ret state2)
  ∧ (∀ ev state1,
       detected (action ev state1) = false
       ∧ (starved ev state1 = true → action ev state1 = Undefined)).
Proof.
  unfold balanced. intros Hb. apply bool_decide_eq_true in Hb as [h Hh].
  split; [|split].
  - apply run_events_track in Hh as (state' & Hrun & _). eauto.
  - intros before ev after ->.
    rewrite track_all_app in Hh.
    destruct (track_all before (heights_of state)) as [h1|] eqn:Hh1;
      [|done].
    apply run_events_track in Hh1 as (state1 & Hrun1 & <-).
    simpl in Hh.
    destruct (track ev (heights_of state1)) as [h2|] eqn:Hh2; [|done].
    assert (Hfed : starved ev state1 = false).
    { destruct (starved ev state1) eqn:Hs; [|done].
      apply track_starved in Hs. congruence. }
    destruct (action_fed _ _ Hfed) as [state2 Hact]. eauto.
  - intros ev state1. split; [|apply action_starved].
    destruct (starved ev state1) eqn:Hs.
    + by rewrite (action_starved _ _ Hs).
    + destruct (action_fed _ _ Hs) as [state2 ->]. done.
Qed.

End ActionFacts.

(** The events of a value are stack-balanced from any sizes, and so is
    every initial part of them. *)
Lemma events_balanced v tr more h :
  events v = tr ++ more → balanced h tr = true.
Proof.
  intros Hv.
  pose (L := {| long_double := unit; stream_extract := λ _, () |}).
  destruct (@heights_of_inhabited L h) as [state <-].
  pose proof (@run_events_value L v state) as Hrun. rewrite Hv in Hrun.
  apply run_events_prefix in Hrun as (state1 & Hrun1 & _).
  apply track_run_events in Hrun1.
  unfold balanced. apply bool_decide_eq_true. by rewrite Hrun1.
Qed.

(** ** The run driver *)

Section DriverFacts.
Context `{LongDouble} `{Engine}.

(** What [grammar] does, by what [pegtl::json::text] does. *)
Lemma grammar_eq (i : input) :
  grammar i
  = match json_text i with
    | Match tr i' =>
        if input_empty i' then Match tr i'
        else Raise tr
               (mk_parse_error (consumed i') (error_message required_eof))
    | Fail tr i' =>
        Raise tr (mk_parse_error (consumed i') (error_message required_text))
    | Raise tr e => Raise tr e
    end.
Proof.
  unfold grammar, seq, must, eof.
  destruct (json_text i) as [tr i'|tr i'|tr e]; try reflexivity.
  destruct (input_empty i'); by rewrite app_nil_r.
Qed.

(** [grammar] never fails locally: it matches or it raises. *)
Lemma grammar_never_fails (i : input) tr i' : grammar i ≠ Fail tr i'.
Proof.
  rewrite grammar_eq.
  destruct (json_text i) as [? i1| |]; try done. by destruct (input_empty i1).
Qed.

(** The events of an initial part of a value run through. *)
Lemma run_events_initial (v : value) (tr more : list event)
  (state : json_state) :
  events v = tr ++ more → ∃ state', run_events tr state = Ret state'.
Proof.
  intros Hv. pose proof (run_events_value v state) as Hrun.
  rewrite Hv in Hrun.
  apply run_events_prefix in Hrun as (state' & Hrun & _). eauto.
Qed.

(** C3. When the engine matches the text of the file as a value and
    reaches the end of the input, the parse run returns with the three
    vectors of the build state empty and the tree of the value in the
    result; the assertions of [main] hold and [main] writes that tree. *)
Theorem main_well_formed_document (program path : string) (v : value)
  (i' : input) :
  json_text (input_start (file_contents path)) = Match (events v) i' →
  input_empty i' = true →
  parse grammar (input_start (file_contents path)) json_state_init
  = Ret (true, mk_json_state (Some (tree v)) [] [] [])
  ∧ main program [path] = Ret (document (Some (tree v))).
Proof.
  intros Htext Hend.
  assert (Hparse :
    parse grammar (input_start (file_contents path)) json_state_init
    = Ret (true, mk_json_state (Some (tree v)) [] [] [])).
  { unfold parse. rewrite grammar_eq, Htext, Hend.
    by rewrite run_events_value. }
  split; [exact Hparse|].
  unfold main. by rewrite Hparse.
Qed.

(** C6. When the text of the file does not match the grammar, [main]
    leaves by the exception of the engine, which carries the position where
    the engine stopped and the message of what was required there, and
    writes no document: the failure raised inside the text when there is
    one, the failure of the required text at the position where its match
    stopped, or the failure of the required end of input at the position
    after the text.  The engine raises events in the order of the grammar,
    so those raised before the failure are an initial part of the events of
    a value. *)
Theorem main_syntax_failure (program path : string) :
  (∃ v more,
     events v
     = trace_of (json_text (input_start (file_contents path))) ++ more) →
  matches (grammar (input_start (file_contents path))) = false →
  ∃ tr e,
    grammar (input_start (file_contents path)) = Raise tr e
    ∧ main program [path] = Throw e
    ∧ e = match json_text (input_start (file_contents path)) with
          | Match _ i' =>
              mk_parse_error (consumed i') (error_message required_eof)
          | Fail _ i' =>
              mk_parse_error (consumed i') (error_message required_text)
          | Raise _ e' => e'
          end.
Proof.
  intros (v & more & Hv) Hno.
  destruct (run_events_initial v _ more json_state_init Hv)
    as [state' Hrun].
  unfold main, parse. rewrite grammar_eq in *.
  destruct (json_text (input_start (file_contents path)))
    as [tr i'|tr i'|tr e]; simpl in *.
  - destruct (input_empty i'); [done|].
    do 2 eexists. split; [reflexivity|]. by rewrite Hrun.
  - do 2 eexists. split; [reflexivity|]. by rewrite Hrun.
  - do 2 eexists. split; [reflexivity|]. by rewrite Hrun.
Qed.

(** C9. When the engine matches a value at the start of the file and
    input remains after it, the grammar does not accept the part matched:
    it raises the failure of the required end of input at the position
    after the value, [main] leaves by that exception and writes no
    document. *)
Theorem grammar_requires_eof (program path : string) (v : value)
  (i' : input) :
  json_text (input_start (file_contents path)) = Match (events v) i' →
  input_empty i' = false →
  grammar (input_start (file_contents path))
  = Raise (events v)
      (mk_parse_error (consumed i') (error_message required_eof))
  ∧ main program [path]
    = Throw (mk_parse_error (consumed i') (error_message required_eof)).
Proof.
  intros Htext Hrest.
  assert (Hgrammar :
    grammar (input_start (file_contents path))
    = Raise (events v)
        (mk_parse_error (consumed i') (error_message required_eof))).
  { by rewrite grammar_eq, Htext, Hrest. }
  split; [exact Hgrammar|].
  unfold main, parse. rewrite Hgrammar.
  by rewrite run_events_value.
Qed.

End DriverFacts.

(** ** The examples of the specification *)

Section Examples.
#[local] Existing Instance x87_long_double.
#[local] Existing Instance example_engine.

(** The extraction of the examples on a few texts: an exponent, a value
    between two neighbours, a negative zero, a fraction that is not a
    binary fraction, values out of range at both ends, and texts that are
    not numbers. *)
Example ld_extract_exponent : ld_extract "1e2" = ld_of_Z 100.
Proof. reflexivity. Qed.

Example ld_extract_rounds :
  ld_extract "18446744073709551617" = ld_of_Z (2 ^ 64).
Proof. reflexivity. Qed.

Example ld_extract_negative_zero : ld_extract "-0" = S754_zero true.
Proof. reflexivity. Qed.

Example ld_extract_tenth :
  ld_extract "0.1" = S754_finite false 14757395258967641293 (-67).
Proof. reflexivity. Qed.

Example ld_extract_too_large :
  ld_extract "-1e5000" = SFopp (SFmax_float ld_prec ld_emax).
Proof. vm_compute. reflexivity. Qed.

Example ld_extract_too_small : ld_extract "1e-5000" = S754_zero false.
Proof. vm_compute. reflexivity. Qed.

Example ld_extract_stops : ld_extract "1.5abc" = ld_extract "1.5".
Proof. reflexivity. Qed.

Example ld_extract_fails :
  ld_extract "abc" = S754_zero false ∧ ld_extract "1e" = S754_zero false.
Proof. split; reflexivity. Qed.

(** Example 1: [null]. *)
Example main_example_null :
  main "json_build_two" [example_null] = Ret (document (Some null_json)).
Proof. reflexivity. Qed.

(** Example 2: an array of three numbers, in order. *)
Example main_example_array :
  main "json_build_two" [example_array]
  = Ret (document
           (Some (array_json [Some (number_json (ld_of_Z 1));
                              Some (number_json (ld_of_Z 2));
                              Some (number_json (ld_of_Z 3))]))).
Proof. reflexivity. Qed.

(** Example 3: a key given twice keeps its second value. *)
Example main_example_duplicate :
  main "json_build_two" [example_duplicate]
  = Ret (document
           (Some (object_json {[ "a" := Some (number_json (ld_of_Z 2)) ]}))).
Proof. reflexivity. Qed.

(** Example 4: an array inside an object. *)
Example main_example_nested :
  main "json_build_two" [example_nested]
  = Ret (document
           (Some (object_json
                    {[ "x" := Some (array_json
                                      [Some (boolean_json true);
                                       Some (boolean_json false);
                                       Some null_json]) ]}))).
Proof. reflexivity. Qed.

(** Example 5: a member without a value. *)
Example main_example_malformed :
  main "json_build_two" [example_malformed]
  = Throw (mk_parse_error 6 "expected value").
Proof. reflexivity. Qed.

(** Without a file name [main] writes the usage line. *)
Example main_example_usage :
  main "json_build_two" [] = Ret (usage "json_build_two").
Proof. reflexivity. Qed.

(** A begin event without its end event is caught by the assertions of
    [main]. *)
Example main_unbalanced_aborts :
  @main x87_long_double unbalanced_engine "json_build_two" ["["]
  = Abort "state.arrays.empty()".
Proof. reflexivity. Qed.

(** An array end without its begin: the action has no defined behaviour,
    and reports nothing. *)
Lemma array_end_without_begin_undetected :
  starved ev_array_end json_state_init = true
  ∧ run_events [ev_array_end] json_state_init = Undefined
  ∧ detected (action ev_array_end json_state_init) = false.
Proof. by repeat split. Qed.


Lemma main_well_formed_document_witness :
  json_text (input_start (file_contents example_nested))
  = Match (events value_nested) (mk_input 26 EmptyString)
  ∧ parse grammar (input_start (file_contents example_nested))
      json_state_init
    = Ret (true, mk_json_state (Some (tree value_nested)) [] [] [])
  ∧ main "json_build_two" [example_nested]
    = Ret (document (Some (tree value_nested))).
Proof.
  split; [reflexivity|].
  apply (main_well_formed_document "json_build_two" example_nested
           value_nested (mk_input 26 EmptyString)); reflexivity.
Defined.

Lemma balanced_events_never_starved_witness :
  balanced (heights_of json_state_init) (events value_nested) = true
  ∧ ∃ state', run_events (events value_nested) json_state_init = Ret state'.
Proof.
  split; [reflexivity|].
  apply (balanced_events_never_starved (events value_nested)
           json_state_init). reflexivity.
Defined.

Lemma main_syntax_failure_witness :
  matches (grammar (input_start (file_contents example_malformed))) = false
  ∧ ∃ tr e,
      grammar (input_start (file_contents example_malformed)) = Raise tr e
      ∧ main "json_build_two" [example_malformed] = Throw e
      ∧ e = mk_parse_error 6 "expected value".
Proof.
  split; [reflexivity|].
  refine (main_syntax_failure "json_build_two" example_malformed _ _).
  - exists (v_object [(["a"], v_null)]),
      [ev_null; ev_object_element; ev_object_end]. reflexivity.
  - reflexivity.
Defined.

Lemma grammar_requires_eof_witness :
  json_text (input_start (file_contents example_trailing))
  = Match (events v_null) (mk_input 5 "x")
  ∧ main "json_build_two" [example_trailing]
    = Throw (mk_parse_error 5 "unexpected character after JSON value").
Proof.
  split; [reflexivity|].
  refine (proj2 (grammar_requires_eof "json_build_two" example_trailing
                   v_null (mk_input 5 "x") _ _)); reflexivity.
Defined.

Lemma action_frame_witness :
  action ev_array_element
    (mk_json_state (Some null_json) ["k"] [[]] [∅])
  = Ret (mk_json_state None ["k"] [[Some null_json]] [∅])
  ∧ objects (mk_json_state None ["k"] [[Some null_json]] [∅])
    = objects (mk_json_state (Some null_json) ["k"] [[]] [∅])
  ∧ keys (mk_json_state None ["k"] [[Some null_json]] [∅])
    = keys (mk_json_state (Some null_json) ["k"] [[]] [∅]).
Proof.
  split; [reflexivity|].
  apply (action_frame ev_array_element
           (mk_json_state (Some null_json) ["k"] [[]] [∅])
           (mk_json_state None ["k"] [[Some null_json]] [∅])).
  reflexivity.
Defined.

End Examples.

(** * Further properties of the builder *)

Section BuilderExtras.
Context `{LongDouble}.
Implicit Types (state : json_state) (ev : event) (evs : list event).

(** X1. The events of a value, whatever the value and in whatever state
    they start (inside any nesting of arrays and objects, with any result
    left over), run through, put the tree of the value in the result and
    leave the pending keys, the arrays and the objects under construction
    exactly as they were. *)
Theorem value_events_build_tree (v : value) (r : json_ptr)
  (ks : list string) (ars : list array_data) (obs : list object_data) :
  run_events (events v) (mk_json_state r ks ars obs)
  = Ret (mk_json_state (Some (tree v)) ks ars obs).
Proof. exact (run_events_value v (mk_json_state r ks ars obs)). Qed.

Lemma run_events_unbalanced evs state :
  track_all evs (heights_of state) = None →
  run_events evs state = Undefined.
Proof.
  revert state. induction evs as [|ev evs IH]; intros state; simpl; [done|].
  pose proof (action_track ev state) as Ht.
  destruct (track ev (heights_of state)) as [h1|].
  - destruct Ht as (state1 & -> & <-). simpl. apply IH.
  - intros _. by rewrite Ht.
Qed.

Lemma run_events_undetected evs state :
  detected (run_events evs state) = false.
Proof.
  destruct (track_all evs (heights_of state)) as [h|] eqn:Hh.
  - apply run_events_track in Hh as (state' & -> & _). done.
  - by rewrite (run_events_unbalanced _ _ Hh).
Qed.

(** X2. The sizes of the three vectors decide whether a sequence of events
    runs through: when the sequence is stack-balanced from the sizes of the
    state it starts in, it returns, and the sizes at the end are those the
    count gives; when it is not, the run has undefined behaviour.  In no
    case does an action throw or stop in an assertion. *)
Theorem run_events_defined_iff_balanced (evs : list event)
  (state : json_state) :
  (if balanced (heights_of state) evs
   then ∃ state', run_events evs state = Ret state'
                  ∧ track_all evs (heights_of state)
                    = Some (heights_of state')
   else run_events evs state = Undefined)
  ∧ returns (run_events evs state) = balanced (heights_of state) evs
  ∧ detected (run_events evs state) = false.
Proof.
  unfold balanced.
  destruct (track_all evs (heights_of state)) as [h|] eqn:Hh.
  - destruct (run_events_track _ _ _ Hh) as (state' & Hrun & <-).
    rewrite bool_decide_eq_true_2 by eauto.
    rewrite Hrun. split; [eauto|]. done.
  - rewrite bool_decide_eq_false_2 by (by intros [? ?]).
    by rewrite (run_events_unbalanced _ _ Hh).
Qed.

(** X6. An element action moves the result and does not ask whether there
    is one.  Two array element events in a row append the result and then
    an empty pointer; two object element events in a row store the result
    under the key pushed last and an empty pointer under the key pushed
    before it. *)
Theorem element_without_value_stores_empty_pointer (r : json_ptr)
  (ks : list string) (k1 k2 : string) (ars : list array_data)
  (a : array_data) (obs : list object_data) (o : object_data) :
  run_events [ev_array_element; ev_array_element]
    (mk_json_state r ks (push_back a ars) obs)
  = Ret (mk_json_state None ks (push_back (a ++ [r; None]) ars) obs)
  ∧ run_events [ev_object_element; ev_object_element]
      (mk_json_state r (push_back k2 (push_back k1 ks)) ars
         (push_back o obs))
    = Ret (mk_json_state None ks ars
             (push_back (<[k1 := None]> (<[k2 := r]> o)) obs)).
Proof.
  split; simpl.
  - unfold action_array_element. simpl. rewrite back_push_back. simpl.
    rewrite set_back_push_back, back_push_back. simpl.
    rewrite set_back_push_back. unfold push_back at 2 3.
    by rewrite <- app_assoc.
  - unfold action_object_element. simpl. rewrite !back_push_back. simpl.
    rewrite set_back_push_back, pop_back_push_back, !back_push_back. simpl.
    by rewrite set_back_push_back, pop_back_push_back.
Qed.

(** ** The keys of an object *)




(** ** Trees without empty pointers *)




End BuilderExtras.

(** ** Nesting: what is below stays *)

Section Nesting.
Context `{LongDouble}.

Lemma prefix_push_back {A : Type} (x : A) (l : list A) :
  l `prefix_of` push_back x l.
Proof. by exists [x]. Qed.

Lemma prefix_below_push_back {A : Type} (x : A) (l l' : list A) :
  push_back x l `prefix_of` l' → l `prefix_of` l'.
Proof. apply prefix_app_l. Qed.

Lemma extends_same (r r' : json_ptr) ks ars obs :
  extends (mk_json_state r ks ars obs) (mk_json_state r' ks ars obs).
Proof. by repeat split. Qed.

Lemma cons_eq_app_inv {A : Type} (x : A) (l tr more : list A) :
  tr ++ more = x :: l →
  tr = [] ∨ ∃ tr', tr = x :: tr' ∧ tr' ++ more = l.
Proof.
  destruct tr as [|y tr]; simpl; [by left|].
  intros [= -> <-]. right. eauto.
Qed.

Lemma elements_keep_below (elements : list value) :
  Forall keeps_below elements →
  ∀ tr more r ks ars a obs state',
    tr ++ more
    = flat_map (λ e, events e ++ [ev_array_element]) elements
      ++ [ev_array_end] →
    run_events tr (mk_json_state r ks (push_back a ars) obs) = Ret state' →
    extends (mk_json_state r ks ars obs) state'.
Proof.
  induction 1 as [|e elements He _ IH];
    intros tr more r ks ars a obs state' Hsplit Hrun.
  - apply cons_eq_app_inv in Hsplit as [->|(tr' & -> & Hnil)].
    + injection Hrun as <-. repeat split; simpl; try done.
      apply prefix_push_back.
    + apply app_eq_nil in Hnil as [-> _]. simpl in Hrun.
      unfold action_array_end in Hrun. simpl in Hrun.
      rewrite back_push_back in Hrun. injection Hrun as <-.
      repeat split; simpl; try done. by rewrite pop_back_push_back.
  - simpl in Hsplit. rewrite <- !app_assoc in Hsplit.
    apply app_eq_inv in Hsplit as [(t & -> & Hrest)|(t & Hpart & _)].
    + rewrite run_events_app, run_events_value in Hrun. simpl in Hrun.
      symmetry in Hrest.
      apply cons_eq_app_inv in Hrest as [->|(t' & -> & Hrest)].
      * injection Hrun as <-. repeat split; simpl; try done.
        apply prefix_push_back.
      * simpl in Hrun. unfold action_array_element in Hrun.
        simpl in Hrun. rewrite back_push_back in Hrun. simpl in Hrun.
        rewrite set_back_push_back in Hrun.
        destruct (IH _ _ _ _ _ _ _ _ Hrest Hrun) as (Hk & Ha & Ho).
        by repeat split.
    + destruct (He _ _ _ _ Hpart Hrun) as (Hk & Ha & Ho). simpl in *.
      repeat split; try done. by eapply prefix_below_push_back.
Qed.

Lemma members_keep_below (members : list (list string * value)) :
  Forall (λ m, keeps_below m.2) members →
  ∀ tr more r ks ars o obs state',
    tr ++ more
    = flat_map (λ m, ev_key_content m.1 :: events m.2
                       ++ [ev_object_element]) members
      ++ [ev_object_end] →
    run_events tr (mk_json_state r ks ars (push_back o obs)) = Ret state' →
    extends (mk_json_state r ks ars obs) state'.
Proof.
  induction 1 as [|[units v] members Hv _ IH];
    intros tr more r ks ars o obs state' Hsplit Hrun.
  - apply cons_eq_app_inv in Hsplit as [->|(tr' & -> & Hnil)].
    + injection Hrun as <-. repeat split; simpl; try done.
      apply prefix_push_back.
    + apply app_eq_nil in Hnil as [-> _]. simpl in Hrun.
      unfold action_object_end in Hrun. simpl in Hrun.
      rewrite back_push_back in Hrun. injection Hrun as <-.
      repeat split; simpl; try done. by rewrite pop_back_push_back.
  - simpl in Hsplit, Hv.
    apply cons_eq_app_inv in Hsplit as [->|(tr' & -> & Hsplit)].
    { injection Hrun as <-. repeat split; simpl; try done.
      apply prefix_push_back. }
    rewrite <- !app_assoc in Hsplit.
    change (run_events (ev_key_content units :: tr') ?s)
      with (s' ←ₑ action_key_content units s; run_events tr' s') in Hrun.
    rewrite action_key_content_eq in Hrun. simpl in Hrun.
    apply app_eq_inv in Hsplit as [(t & -> & Hrest)|(t & Hpart & _)].
    + rewrite run_events_app, run_events_value in Hrun. simpl in Hrun.
      symmetry in Hrest.
      apply cons_eq_app_inv in Hrest as [->|(t' & -> & Hrest)].
      * injection Hrun as <-. repeat split; simpl; try done.
        -- apply prefix_push_back.
        -- apply prefix_push_back.
      * simpl in Hrun. unfold action_object_element in Hrun.
        simpl in Hrun. rewrite !back_push_back in Hrun. simpl in Hrun.
        rewrite set_back_push_back, pop_back_push_back in Hrun.
        destruct (IH _ _ _ _ _ _ _ _ Hrest Hrun) as (Hk & Ha & Ho).
        by repeat split.
    + destruct (Hv _ _ _ _ Hpart Hrun) as (Hk & Ha & Ho). simpl in *.
      repeat split; try done; by eapply prefix_below_push_back.
Qed.

Lemma leaf_keeps_below (ev : event) (tr more : list event)
  (state state' : json_state) (r : json_ptr) :
  (∀ s, action ev s = Ret (set_result r s)) →
  [ev] = tr ++ more →
  run_events tr state = Ret state' →
  extends state state'.
Proof.
  intros Hev Hsplit Hrun. symmetry in Hsplit.
  apply cons_eq_app_inv in Hsplit as [->|(tr' & -> & Hnil)].
  - injection Hrun as <-. by repeat split.
  - apply app_eq_nil in Hnil as [-> _].
    change (run_events [ev] state)
      with (s' ←ₑ action ev state; Ret s') in Hrun.
    rewrite Hev in Hrun. injection Hrun as <-. by repeat split.
Qed.

Lemma value_keeps_below (v : value) : keeps_below v.
Proof.
  induction v as [| | | text | units | elements IH | members IH]
    using value_nested_ind; intros tr more state state' Hsplit Hrun.
  - by eapply (leaf_keeps_below ev_null).
  - by eapply (leaf_keeps_below ev_true).
  - by eapply (leaf_keeps_below ev_false).
  - by eapply (leaf_keeps_below (ev_number text)).
  - eapply (leaf_keeps_below (ev_string_content units)); [|done..].
    apply action_string_content_eq.
  - simpl in Hsplit. symmetry in Hsplit.
    apply cons_eq_app_inv in Hsplit as [->|(tr' & -> & Hsplit)].
    { injection Hrun as <-. by repeat split. }
    destruct state as [r ks ars obs]. simpl in Hrun.
    exact (elements_keep_below elements IH _ _ _ _ _ _ _ _ Hsplit Hrun).
  - simpl in Hsplit. symmetry in Hsplit.
    apply cons_eq_app_inv in Hsplit as [->|(tr' & -> & Hsplit)].
    { injection Hrun as <-. by repeat split. }
    destruct state as [r ks ars obs]. simpl in Hrun.
    exact (members_keep_below members IH _ _ _ _ _ _ _ _ Hsplit Hrun).
Qed.

(** X5. While the events of a value are being processed, at any point
    from the first event to the last, the run is defined and the pending
    keys, the arrays and the objects that were under construction before
    the value began are all still there, unchanged and in place, below
    whatever the value has pushed since: a nested value never touches the
    containers around it. *)
Theorem nested_value_keeps_outer_containers (v : value)
  (tr more : list event) (state : json_state) :
  events v = tr ++ more →
  ∃ state',
    run_events tr state = Ret state'
    ∧ keys state `prefix_of` keys state'
    ∧ arrays state `prefix_of` arrays state'
    ∧ objects state `prefix_of` objects state'.
Proof.
  intros Hsplit.
  pose proof (run_events_value v state) as Hrun. rewrite Hsplit in Hrun.
  apply run_events_prefix in Hrun as (state' & Hrun & _).
  exists state'. split; [exact Hrun|].
  exact (value_keeps_below v tr more state state' Hsplit Hrun).
Qed.

End Nesting.

(** ** The run driver, read backwards *)

Section DriverExtras.
Context `{LongDouble} `{Engine}.

Lemma parse_grammar_inv (i : input) (state state' : json_state) (b : bool) :
  parse grammar i state = Ret (b, state') →
  b = true
  ∧ ∃ tr i',
      json_text i = Match tr i'
      ∧ input_empty i' = true
      ∧ run_events tr state = Ret state'.
Proof.
  unfold parse. rewrite grammar_eq.
  destruct (json_text i) as [tr i'|tr i'|tr e].
  - destruct (input_empty i') eqn:Hend.
    + intros Hret. apply exec_bind_returns in Hret as (s & Hrun & [= <- <-]).
      split; [done|]. by exists tr, i'.
    + intros Hret. by apply exec_bind_returns in Hret as (s & _ & [=]).
  - intros Hret. by apply exec_bind_returns in Hret as (s & _ & [=]).
  - intros Hret. by apply exec_bind_returns in Hret as (s & _ & [=]).
Qed.

(** X7. A parse of [grammar] never returns false.  If the call returns at
    all, it returns true, the text rule has matched up to the end of the
    input, and the state returned is the one the actions of the match have
    built; every other text ends the call by an exception.  So [main]
    loses nothing by not looking at the value of [pegtl::parse]. *)
Theorem parse_grammar_never_false (i : input) (state state' : json_state)
  (b : bool) :
  parse grammar i state = Ret (b, state') →
  b = true
  ∧ ∃ tr i',
      json_text i = Match tr i'
      ∧ input_empty i' = true
      ∧ run_events tr state = Ret state'.
Proof. apply parse_grammar_inv. Qed.

Lemma assert_returns (cond : bool) (expr : string) (u : unit) :
  assert cond expr = Ret u → cond = true.
Proof. by destruct cond. Qed.

(** X8. [main] writes a document only after a clean run: it was given
    exactly one argument, the text of that file matched up to the end of
    the input, every action of the match returned, and at the end the
    pending keys, the arrays and the objects were all empty; what it
    writes is the result of that final state.  Whatever the engine does,
    [main] never writes the result of a state with something left on a
    vector. *)
Theorem main_document_only_after_clean_run (program : string)
  (args : list string) (root : json_ptr) :
  main program args = Ret (document root) →
  ∃ path tr i' state',
    args = [path]
    ∧ json_text (input_start (file_contents path)) = Match tr i'
    ∧ input_empty i' = true
    ∧ run_events tr json_state_init = Ret state'
    ∧ keys state' = []
    ∧ arrays state' = []
    ∧ objects state' = []
    ∧ result state' = root.
Proof.
  unfold main. destruct args as [|path [|? ?]]; [done| |done].
  intros Hmain.
  apply exec_bind_returns in Hmain as ([b state'] & Hparse & Hmain).
  apply parse_grammar_inv in Hparse as (_ & tr & i' & Htext & Hend & Hrun).
  simpl in Hmain.
  apply exec_bind_returns in Hmain as (u1 & Hkeys & Hmain).
  apply exec_bind_returns in Hmain as (u2 & Harrays & Hmain).
  apply exec_bind_returns in Hmain as (u3 & Hobjects & [= <-]).
  apply assert_returns in Hkeys, Harrays, Hobjects.
  exists path, tr, i', state'.
  repeat split; try done.
  - by destruct (keys state').
  - by destruct (arrays state').
  - by destruct (objects state').
Qed.

(** X9. As long as the engine raises its events in the order of the
    grammar, so that those raised on a text are an initial part of the
    events of some value, [main] has defined behaviour on that text: it
    writes a document, or leaves by the exception of the engine, or stops
    in one of its assertions.  No text makes an action reach into an empty
    vector. *)
Theorem main_never_undefined (program path : string) :
  (∃ v more,
     events v
     = trace_of (json_text (input_start (file_contents path))) ++ more) →
  main program [path] ≠ Undefined
  ∧ returns (main program [path]) || detected (main program [path]) = true.
Proof.
  intros (v & more & Hv).
  destruct (run_events_initial v _ more json_state_init Hv)
    as [state' Hrun].
  assert (Hdefined :
    returns (main program [path]) || detected (main program [path])
    = true).
  { unfold main, parse. rewrite grammar_eq.
    destruct (json_text (input_start (file_contents path)))
      as [tr i'|tr i'|tr e]; simpl in Hrun; try by rewrite Hrun.
    destruct (input_empty i'); rewrite Hrun; simpl; [|done].
    destruct (keys state'); simpl; [|done].
    destruct (arrays state'); simpl; [|done].
    by destruct (objects state'). }
  split; [|exact Hdefined].
  intros Hundef. by rewrite Hundef in Hdefined.
Qed.

(** X10. Matching a rule through [disable_action] executes no action: for
    either apply mode of the caller the parse consumes what the rule
    consumes and ends as the rule ends, returning true or false or
    raising the failure of the rule, with the build state exactly as it
    was given.  It therefore agrees with the parse that executes the
    actions on whether the rule matched and on the failure raised, and it
    is defined even where an action would not be. *)
Theorem disable_action_runs_no_action (r : rule) (A : apply_mode)
  (i : input) (state : json_state) :
  parse (disable_action_match r A) i state
  = match r i with
    | Match _ _ => Ret (true, state)
    | Fail _ _ => Ret (false, state)
    | Raise _ e => Throw e
    end
  ∧ (∀ b state',
       parse r i state = Ret (b, state') →
       parse (disable_action_match r A) i state = Ret (b, state))
  ∧ (∀ e,
       parse r i state = Throw e →
       parse (disable_action_match r A) i state = Throw e)
  ∧ parse (disable_action_match r A) i state ≠ Undefined.
Proof.
  unfold parse, disable_action_match, engine_match.
  destruct (r i) as [tr i'|tr i'|tr e]; simpl.
  - split; [done|]. split; [|split; [|done]].
    + intros b state' Hret.
      by apply exec_bind_returns in Hret as (s & _ & [= <- _]).
    + intros e Hthrow.
      pose proof (run_events_undetected tr state) as Hund.
      destruct (run_events tr state); simpl in *; congruence.
  - split; [done|]. split; [|split; [|done]].
    + intros b state' Hret.
      by apply exec_bind_returns in Hret as (s & _ & [= <- _]).
    + intros e Hthrow.
      pose proof (run_events_undetected tr state) as Hund.
      destruct (run_events tr state); simpl in *; congruence.
  - split; [done|]. split; [|split; [|done]].
    + intros b state' Hret.
      by apply exec_bind_returns in Hret as (s & _ & [=]).
    + intros e' Hthrow.
      pose proof (run_events_undetected tr state) as Hund.
      destruct (run_events tr state); simpl in *; congruence.
Qed.

(** X11. Disabling the actions of a composite rule is disabling them in
    its parts: for a sequence and for a required rule the match without
    actions is the sequence, or the requirement, of the parts matched
    without actions, and for [grammar] it is the grammar over the text
    rule matched without actions.  Disabling twice is disabling once. *)
Theorem disable_action_distributes (a b : rule) (msg : string)
  (A : apply_mode) (i : input) :
  disable_action_match (seq a b) A i
  = seq (disable_action_match a A) (disable_action_match b A) i
  ∧ disable_action_match (must msg a) A i
    = must msg (disable_action_match a A) i
  ∧ disable_action_match grammar A i
    = seq (must (error_message required_text)
             (disable_action_match json_text A))
          (must (error_message required_eof) eof) i
  ∧ disable_action_match (disable_action_match a A) A i
    = disable_action_match a A i.
Proof.
  unfold disable_action_match, engine_match, grammar, seq, must, eof.
  repeat split.
  - destruct (a i) as [tr1 i1| |]; simpl; try done.
    by destruct (b i1).
  - by destruct (a i).
  - destruct (json_text i) as [tr1 i1| |]; simpl; try done.
    by destruct (input_empty i1).
  - by destruct (a i).
Qed.

End DriverExtras.

(** ** Instances of the further properties *)

Section ExtraWitnesses.
#[local] Existing Instance x87_long_double.
#[local] Existing Instance example_engine.

Lemma nested_value_keeps_outer_containers_witness :
  events value_nested
  = [ev_object_begin; ev_key_content ["x"]; ev_array_begin; ev_true;
     ev_array_element]
    ++ [ev_false; ev_array_element; ev_null; ev_array_element;
        ev_array_end; ev_object_element; ev_object_end]
  ∧ ∃ state',
      run_events
        [ev_object_begin; ev_key_content ["x"]; ev_array_begin; ev_true;
         ev_array_element]
        (mk_json_state None ["outer"] [[Some null_json]] [])
      = Ret state'
      ∧ ["outer"] `prefix_of` keys state'
      ∧ [[Some null_json]] `prefix_of` arrays state'
      ∧ [] `prefix_of` objects state'.
Proof.
  split; [reflexivity|].
  apply (nested_value_keeps_outer_containers value_nested
           [ev_object_begin; ev_key_content ["x"]; ev_array_begin; ev_true;
            ev_array_element]
           [ev_false; ev_array_element; ev_null; ev_array_element;
            ev_array_end; ev_object_element; ev_object_end]
           (mk_json_state None ["outer"] [[Some null_json]] [])).
  reflexivity.
Defined.

Lemma parse_grammar_never_false_witness :
  parse grammar (input_start example_array) json_state_init
  = Ret (true, mk_json_state (Some (tree value_array)) [] [] [])
  ∧ true = true
  ∧ ∃ tr i',
      json_text (input_start example_array) = Match tr i'
      ∧ input_empty i' = true
      ∧ run_events tr json_state_init
        = Ret (mk_json_state (Some (tree value_array)) [] [] []).
Proof.
  split; [reflexivity|].
  apply (parse_grammar_never_false (input_start example_array)
           json_state_init
           (mk_json_state (Some (tree value_array)) [] [] []) true).
  reflexivity.
Defined.

Lemma main_document_only_after_clean_run_witness :
  main "json_build_two" [example_array]
  = Ret (document (Some (tree value_array)))
  ∧ ∃ path tr i' state',
      [example_array] = [path]
      ∧ json_text (input_start (file_contents path)) = Match tr i'
      ∧ input_empty i' = true
      ∧ run_events tr json_state_init = Ret state'
      ∧ keys state' = []
      ∧ arrays state' = []
      ∧ objects state' = []
      ∧ result state' = Some (tree value_array).
Proof.
  split; [reflexivity|].
  apply (main_document_only_after_clean_run "json_build_two"
           [example_array] (Some (tree value_array))).
  reflexivity.
Defined.

Lemma main_never_undefined_witness :
  (∃ v more,
     events v
     = trace_of (json_text (input_start (file_contents example_malformed)))
       ++ more)
  ∧ main "json_build_two" [example_malformed] ≠ Undefined
  ∧ returns (main "json_build_two" [example_malformed])
    || detected (main "json_build_two" [example_malformed]) = true.
Proof.
  assert (Hprefix :
    ∃ v more,
      events v
      = trace_of (json_text (input_start (file_contents example_malformed)))
        ++ more).
  { exists (v_object [(["a"], v_null)]),
      [ev_null; ev_object_element; ev_object_end]. reflexivity. }
  split; [exact Hprefix|].
  exact (main_never_undefined "json_build_two" example_malformed Hprefix).
Defined.

End ExtraWitnesses.
